(** * The collaborative session relay of [backend/handlers/websocket.go]

    A shallow embedding of the Go package [handlers]: the client registry,
    the message classifier ([handleMessage], [handleUpdate]), the
    broadcaster ([broadcastMessage]), the persistence store ([saveState],
    [loadState]) and the inbound loop ([readPump]), followed by the
    properties the relay's specification states about them.

    Conventions of the embedding:
    - a frame ([[]byte]) is a [list byte]; [len] is Go's [len] as a [Z];
    - a [*client] is the address of the struct, a [nat]; the registry
      [clients] maps the addresses it holds to the structs they point to
      (the Go map is a set of pointers; a struct leaves the model when
      [HandleWebSocket] deletes it from the map and closes its channel);
    - the package variables ([clients], [sharedState]), the snapshot file
      and the log are fields of one [State], threaded through every
      function; the two mutexes only serialise the accesses, and each
      function below is one such serialised step;
    - [go saveState()] adds one to [saves], the number of spawned saves
      that have not started yet; a save runs in two halves, as the
      goroutine does: [saveState_read] takes the blob under the read lock
      and [saveState_write] writes it later, without a lock, so other
      steps can come between the two;
    - what the operating system answers (a failing read or write, the
      frames a connection delivers) is an argument of the function that
      asks for it. *)

From Stdlib Require Import ZArith.
From Stdlib.Strings Require Import Byte.
From stdpp Require Import gmap strings list.

Module handlers.

(** ** Constants *)

(** [autoSaveInterval], in seconds. *)
Definition autoSaveInterval : Z := 30.

(** [const maxUpdateSize = 10 * 1024 * 1024] of [logYDocContent]. *)
Definition maxUpdateSize : Z := 10 * 1024 * 1024.

(** Go's [len]. *)
Definition len {A : Type} (l : list A) : Z := Z.of_nat (length l).

(** [func min(a, b int) int]. *)
Definition min (a b : Z) : Z := if (a <? b)%Z then a else b.

(** ** Data *)

(** The lines the package writes with [log.Printf] and [log.Println]. *)
Inductive LogEvent : Type :=
  | LogConnected (ip roomName : string)
  | LogDisconnected
  | LogReadEOF
  | LogReadError
  | LogHandleError
  | LogWriteError
  | LogReceived (msgType : byte) (length : Z)
  | LogOversize (length limit : Z)
  | LogUpdate (length : Z)
  | LogPreview (previewLen : Z) (preview : list byte)
  | LogEstimate (estimatedNodes estimatedEdges : Z)
  | LogSaveError
  | LogSaved (length : Z)
  | LogNoSavedState
  | LogLoadError
  | LogSavedEmpty
  | LogLoaded (length : Z).

(** A buffered channel of frames: its capacity and the frames pending. *)
Record chan : Type := Chan {
  chan_cap : nat;
  chan_buf : list (list byte)
}.

(** [make(chan []byte, n)]. *)
Definition make_chan (n : nat) : chan := Chan n [].

(** [type client struct { conn; send }]; of the connection the model keeps
    whether it is still open. *)
Record client : Type := Client {
  conn_open : bool;
  send : chan
}.

(** The package state, the snapshot file and the log. *)
Record State : Type := mkState {
  clients : gmap nat client;
  sharedState : list byte;
  disk : option (list byte);
  saves : nat;
  log : list LogEvent
}.

Definition set_clients (f : gmap nat client -> gmap nat client) (st : State) : State :=
  mkState (f (clients st)) (sharedState st) (disk st) (saves st) (log st).

Definition set_sharedState (data : list byte) (st : State) : State :=
  mkState (clients st) data (disk st) (saves st) (log st).

Definition set_disk (d : option (list byte)) (st : State) : State :=
  mkState (clients st) (sharedState st) d (saves st) (log st).

Definition set_saves (n : nat) (st : State) : State :=
  mkState (clients st) (sharedState st) (disk st) n (log st).

(** One more line at the end of the log. *)
Definition logf (e : LogEvent) (st : State) : State :=
  mkState (clients st) (sharedState st) (disk st) (saves st) (log st ++ [e]).

(** Go's [error]; [None] is [nil]. *)
Definition error : Type := option string.

(** ** The file system *)

(** What [os.WriteFile] does: it succeeds, or it fails and leaves on disk
    whatever the failure left there. *)
Inductive WriteOutcome : Type :=
  | WriteOk
  | WriteErr (left : option (list byte)).

Definition os_WriteFile (w : WriteOutcome) (data : list byte)
    (d : option (list byte)) : option (list byte) * error :=
  match w with
  | WriteOk => (Some data, None)
  | WriteErr d' => (d', Some "write"%string)
  end.

Inductive ReadResult : Type :=
  | ReadOk (data : list byte)
  | ReadNotExist
  | ReadErr.

(** [os.ReadFile]: [fault] is a read error other than a missing file. *)
Definition os_ReadFile (fault : bool) (d : option (list byte)) : ReadResult :=
  if fault then ReadErr
  else match d with
       | None => ReadNotExist
       | Some data => ReadOk data
       end.

(** ** Persistence store *)

(** [func saveState()]. *)
Definition saveState (w : WriteOutcome) (st : State) : State :=
  let data := sharedState st in
  if (len data =? 0)%Z then st
  else
    match os_WriteFile w data (disk st) with
    | (d, Some _) => logf LogSaveError (set_disk d st)
    | (d, None) => logf (LogSaved (len data)) (set_disk d st)
    end.

(** [func loadState()]. *)
Definition loadState (fault : bool) (st : State) : State :=
  match os_ReadFile fault (disk st) with
  | ReadNotExist => logf LogNoSavedState st
  | ReadErr => logf LogLoadError st
  | ReadOk data =>
      if (len data =? 0)%Z then logf LogSavedEmpty st
      else logf (LogLoaded (len data)) (set_sharedState data st)
  end.

(** The package variables as the process starts, over the disk it finds. *)
Definition fresh_process (d : option (list byte)) : State :=
  mkState ∅ [] d 0 [].

(** [func init()]: [loadState()]; the [autoSave] goroutine it starts acts
    through [autoSave_tick]. *)
Definition init (fault : bool) (d : option (list byte)) : State :=
  loadState fault (fresh_process d).

(** One turn of the loop of [func autoSave()], at a tick of the ticker. *)
Definition autoSave_tick (w : WriteOutcome) (st : State) : State :=
  let hasState := (len (sharedState st) >? 0)%Z in
  if hasState then saveState w st else st.

(** [go saveState()]: one more save waits to run. *)
Definition go_saveState (st : State) : State := set_saves (S (saves st)) st.

(** The first half of [saveState], under the read lock: the payload the
    save is going to write is the blob as it is now. *)
Definition saveState_read (st : State) : list byte := sharedState st.

(** The second half of [saveState], which holds no lock: the payload
    [data] read earlier is written, unless it is empty. The state it
    finds may differ from the one the payload was read in. *)
Definition saveState_write (w : WriteOutcome) (data : list byte) (st : State) : State :=
  if (len data =? 0)%Z then st
  else
    match os_WriteFile w data (disk st) with
    | (d, Some _) => logf LogSaveError (set_disk d st)
    | (d, None) => logf (LogSaved (len data)) (set_disk d st)
    end.

(** ** Relay *)

(** [func (c *client) logYDocContent(update []byte)]. *)
Definition logYDocContent (update : list byte) (st : State) : State :=
  if (len update >? maxUpdateSize)%Z then
    logf (LogOversize (len update) maxUpdateSize) st
  else
    let st := logf (LogUpdate (len update)) st in
    if (len update >? 0)%Z then
      let previewLen := min 100 (len update) in
      let st := logf (LogPreview previewLen (take (Z.to_nat previewLen) update)) st in
      let estimatedNodes := (len update / 300)%Z in
      let estimatedEdges := (len update / 100)%Z in
      logf (LogEstimate estimatedNodes estimatedEdges) st
    else st.

(** [func (c *client) handleUpdate(msg []byte)]. *)
Definition handleUpdate (c : nat) (msg : list byte) (st : State) : State :=
  match msg with
  | [] => st
  | tag :: update =>
      if (len msg <? 2)%Z || negb (Byte.eqb tag x02) then st
      else if (len update =? 0)%Z then st
      else
        let st := set_sharedState update st in
        let st := logYDocContent update st in
        go_saveState st
  end.

(** [select { case client.send <- msg: default: }]: the frame joins the
    queue when the buffer has room and is skipped otherwise. *)
Definition try_send (msg : list byte) (cl : client) : client :=
  let ch := send cl in
  if decide (length (chan_buf ch) < chan_cap ch)%nat
  then Client (conn_open cl) (Chan (chan_cap ch) (chan_buf ch ++ [msg]))
  else cl.

(** [func (c *client) broadcastMessage(msg []byte) error]: the loop visits
    each entry of [clients] once and touches only that entry. *)
Definition broadcastMessage (c : nat) (msg : list byte) (st : State) : error * State :=
  (None,
   set_clients
     (map_imap (fun client cl =>
        Some (if decide (client ≠ c) then try_send msg cl else cl)))
     st).

(** [func (c *client) handleMessage(msg []byte) error]. *)
Definition handleMessage (c : nat) (msg : list byte) (st : State) : error * State :=
  match msg with
  | [] => (None, st)
  | msgType :: _ =>
      let st := logf (LogReceived msgType (len msg)) st in
      let st := if Byte.eqb msgType x02 then handleUpdate c msg st else st in
      broadcastMessage c msg st
  end.

(** ** Connection actor *)

(** What [c.conn.ReadMessage()] returns. *)
Inductive ReadMessage : Type :=
  | RecvOk (message : list byte)
  | RecvEOF
  | RecvErr.

(** Where [readPump] stands once the reads it was given are used up. *)
Inductive PumpStatus : Type :=
  | Reading
  | Returned.

(** [defer c.conn.Close()]. *)
Definition conn_Close (c : nat) (st : State) : State :=
  set_clients (alter (fun cl => Client false (send cl)) c) st.

(** [func (c *client) readPump()], over the results of its successive
    [ReadMessage] calls; [Reading] when the loop waits for a further one. *)
Fixpoint readPump (c : nat) (reads : list ReadMessage) (st : State) : PumpStatus * State :=
  match reads with
  | [] => (Reading, st)
  | RecvEOF :: _ => (Returned, conn_Close c (logf LogReadEOF st))
  | RecvErr :: _ => (Returned, conn_Close c (logf LogReadError st))
  | RecvOk message :: rest =>
      match handleMessage c message st with
      | (Some _, st') => (Returned, conn_Close c (logf LogHandleError st'))
      | (None, st') => readPump c rest st'
      end
  end.

(** One turn of the loop of [func (c *client) writePump()]:
    [message := <-c.send] takes the frame at the head of the queue and
    [WriteMessage] writes it; [ok] says whether the write succeeded. On an
    empty queue the loop waits, and nothing changes. *)
Definition writePump_turn (ok : bool) (c : nat) (st : State) : State :=
  match clients st !! c with
  | Some cl =>
      match chan_buf (send cl) with
      | [] => st
      | message :: rest =>
          let st :=
            set_clients
              (insert c (Client (conn_open cl) (Chan (chan_cap (send cl)) rest))) st in
          if ok then st else logf LogWriteError st
      end
  | None => st
  end.

(** [HandleWebSocket] up to the start of the pumps: [c] is the address of
    the struct [&client{...}] allocates; [roomName] reaches the log only. *)
Definition HandleWebSocket_register (ip roomName : string) (c : nat) (st : State) : State :=
  let st := logf (LogConnected ip roomName) st in
  set_clients (insert c (Client true (make_chan 256))) st.

(** [HandleWebSocket] after [readPump] has returned. *)
Definition HandleWebSocket_cleanup (c : nat) (st : State) : State :=
  let st := set_clients (delete c) st in
  logf LogDisconnected st.

(** [HandleWebSocket] for one client whose upgrade succeeded, run alone. *)
Definition HandleWebSocket (ip roomName : string) (c : nat)
    (reads : list ReadMessage) (st : State) : PumpStatus * State :=
  match readPump c reads (HandleWebSocket_register ip roomName c st) with
  | (Returned, st') => (Returned, HandleWebSocket_cleanup c st')
  | (Reading, st') => (Reading, st')
  end.

End handlers.

Import handlers.

(** * What the statements observe *)

#[global] Instance byte_eq_dec : EqDecision byte := Byte.byte_eq_dec.

(** The frames waiting in the queue of the client at [d], when the
    registry holds [d]. *)
Definition pending (st : State) (d : nat) : option (list (list byte)) :=
  (λ cl, chan_buf (send cl)) <$> clients st !! d.

(** [d] is in the registry. *)
Definition registered (st : State) (d : nat) : Prop := is_Some (clients st !! d).

(** [d] is registered and its queue is not full. *)
Definition has_room (st : State) (d : nat) : Prop :=
  ∃ cl, clients st !! d = Some cl
        ∧ (length (chan_buf (send cl)) < chan_cap (send cl))%nat.

(** Between [st] and [st'] the frame [msg] joined the end of the queue of
    [d], and nothing else happened to that queue. *)
Definition delivered (msg : list byte) (st st' : State) (d : nat) : Prop :=
  ∃ q, pending st d = Some q ∧ pending st' d = Some (q ++ [msg]).

(** Between [st] and [st'] the client at [d] was left as it was. *)
Definition untouched (st st' : State) (d : nat) : Prop :=
  clients st' !! d = clients st !! d.

#[global] Instance chan_eq_dec : EqDecision chan.
Proof. solve_decision. Defined.

#[global] Instance client_eq_dec : EqDecision client.
Proof. solve_decision. Defined.

#[global] Instance registered_dec st d : Decision (registered st d).
Proof. unfold registered. apply _. Defined.

#[global] Instance untouched_dec st st' d : Decision (untouched st st' d).
Proof. unfold untouched. apply _. Defined.

#[global] Instance has_room_dec st d : Decision (has_room st d).
Proof.
  unfold has_room. destruct (clients st !! d) as [cl|].
  - destruct (decide (length (chan_buf (send cl)) < chan_cap (send cl))%nat) as [Hlt|Hge].
    + left. by exists cl.
    + right. intros (cl' & Heq & Hlt). by injection Heq as <-.
  - right. by intros (cl' & Heq & _).
Defined.

#[global] Instance delivered_dec msg st st' d : Decision (delivered msg st st' d).
Proof.
  unfold delivered. destruct (pending st d) as [q|].
  - destruct (decide (pending st' d = Some (q ++ [msg]))) as [Heq|Hne].
    + left. by exists q.
    + right. intros (q' & Hq & Heq). by injection Hq as <-.
  - right. by intros (q' & Hq & _).
Defined.

(** The frame the next turn of [writePump] hands to [WriteMessage] for
    the client at [d]. *)
Definition next_write (st : State) (d : nat) : option (list byte) :=
  pending st d ≫= head.

(** [n] turns of [writePump] for the client at [d], every write
    succeeding. *)
Definition drain (n : nat) (d : nat) (st : State) : State :=
  Nat.iter n (writePump_turn true d) st.

(** The relay handles the frames of [inputs] in order, each on behalf of
    the client that sent it. *)
Definition handle_all (inputs : list (nat * list byte)) (st : State) : State :=
  foldl (λ s input, (handleMessage input.1 input.2 s).2) st inputs.

(** The payload [handleUpdate] takes from a frame: the bytes after the
    tag, when the tag is 2 and there is at least one of them. *)
Definition update_payload (msg : list byte) : option (list byte) :=
  match msg with
  | tag :: b :: p => if Byte.eqb tag x02 then Some (b :: p) else None
  | _ => None
  end.

(** The payloads taken from the frames of [inputs], in order. *)
Definition accepted (inputs : list (nat * list byte)) : list (list byte) :=
  omap (λ input, update_payload input.2) inputs.

(** The frames of [inputs] that [broadcastMessage] offers to the client at
    [d]: the non-empty ones that [d] did not send itself, in order. *)
Definition offered (d : nat) (inputs : list (nat * list byte)) : list (list byte) :=
  omap (λ input,
          if decide (input.1 = d) then None
          else match input.2 with
               | [] => None
               | _ :: _ => Some input.2
               end)
       inputs.

(** The log line [readPump] writes for a failed read. *)
Definition read_failure_line (r : ReadMessage) : LogEvent :=
  match r with
  | RecvEOF => LogReadEOF
  | _ => LogReadError
  end.

(** The clients of a session connect one after the other, each to the
    path [/ws/<room>] of its room. *)
Definition connect_all (ip : string) (conns : list (nat * string)) (st : State) : State :=
  foldl (λ s conn, HandleWebSocket_register ip conn.2 conn.1 s) st conns.

(** The same connections with the room names erased. *)
Definition forget_rooms (conns : list (nat * string)) : list (nat * string) :=
  (λ conn, (conn.1, ""%string)) <$> conns.

(** The transport failed on this read: end of stream or another error. *)
Definition read_failed (r : ReadMessage) : bool :=
  match r with
  | RecvOk _ => false
  | RecvEOF | RecvErr => true
  end.

(** ** Sessions used as concrete inputs *)

(** Clients 1, 2 and 3 connected to room r1. *)
Definition three_in_r1 : State :=
  connect_all "10.0.0.1" [(1, "r1"); (2, "r1"); (3, "r1")]%string (init false None).

(** The frames client 3 sends to fill the queues of the others. *)
Definition flood (st : State) : State :=
  Nat.iter 256 (λ s, (handleMessage 3 [x00] s).2) st.

(** [three_in_r1] after client 3 has sent 256 frames [[0]] while the
    connections of clients 1 and 2 stalled (lemma [saturated_reached]):
    256 frames wait in the queue of each of them, none in the queue of
    client 3. *)
Definition saturated : State :=
  mkState
    (<[1 := Client true (Chan 256 (replicate 256 [x00]))]>
       (<[2 := Client true (Chan 256 (replicate 256 [x00]))]>
          (<[3 := Client true (Chan 256 [])]> ∅)))
    [] None 0
    (log three_in_r1 ++ replicate 256 (LogReceived x00 1)).

(** Every queue of the registry has the capacity [HandleWebSocket] gives
    it and holds no more frames than that. *)
Definition queues_bounded (st : State) : Prop :=
  ∀ d cl, clients st !! d = Some cl →
    chan_cap (send cl) = 256%nat ∧ (length (chan_buf (send cl)) ≤ 256)%nat.

(** The steps the relay takes: a connection is accepted, a frame arrives,
    a read fails, a handler cleans up, a queue is drained by one frame, a
    spawned save starts (it reads the blob, which changes nothing but the
    count of saves that wait), a save that is under way writes, the
    autosave ticker fires. The relation does not record which payload a
    save under way has read and lets it write any: it has every run of
    the relay and more, so what holds of all its runs holds of the
    relay. *)
Inductive step : State → State → Prop :=
  | step_register ip roomName c st :
      clients st !! c = None →
      step st (HandleWebSocket_register ip roomName c st)
  | step_message c msg st :
      step st (handleMessage c msg st).2
  | step_read_failed c r st :
      read_failed r = true →
      step st (readPump c [r] st).2
  | step_cleanup c st :
      step st (HandleWebSocket_cleanup c st)
  | step_write ok c st :
      step st (writePump_turn ok c st)
  | step_save_started n st :
      saves st = S n →
      step st (set_saves n st)
  | step_save_written w data st :
      step st (saveState_write w data st)
  | step_tick w st :
      step st (autoSave_tick w st).

(** The states a process reaches after it started over the disk [d]. *)
Definition reachable (st : State) : Prop :=
  ∃ fault d, rtc step (init fault d) st.

(** What the relay does while the client at [c] is connected: every step
    but the three that belong to the start and the end of its own
    [HandleWebSocket] (its registration, the failed read that ends its
    [readPump], its cleanup). Other clients connect, send, fail and are
    cleaned up; [c] sends frames of its own; queues are written out,
    saves start and write, the ticker fires. *)
Inductive step_during (c : nat) : State → State → Prop :=
  | during_register ip roomName d st :
      d ≠ c → clients st !! d = None →
      step_during c st (HandleWebSocket_register ip roomName d st)
  | during_message d msg st :
      step_during c st (handleMessage d msg st).2
  | during_read_failed d r st :
      d ≠ c → read_failed r = true →
      step_during c st (readPump d [r] st).2
  | during_cleanup d st :
      d ≠ c →
      step_during c st (HandleWebSocket_cleanup d st)
  | during_write ok d st :
      step_during c st (writePump_turn ok d st)
  | during_save_started n st :
      saves st = S n →
      step_during c st (set_saves n st)
  | during_save_written w data st :
      step_during c st (saveState_write w data st)
  | during_tick w st :
      step_during c st (autoSave_tick w st).

(** The client at [c] is registered, its connection is open and its queue
    has the capacity [HandleWebSocket] gave it. *)
Definition connected (st : State) (c : nat) : Prop :=
  ∃ cl, clients st !! c = Some cl
        ∧ conn_open cl = true
        ∧ chan_cap (send cl) = 256%nat.

(** A payload one byte over the limit. *)
Definition oversized : list byte := replicate (Z.to_nat (maxUpdateSize + 1)) x00.


(** * Frame lemmas: which fields each function touches *)

Section Frames.

Implicit Types (st : State) (c d : nat) (msg p : list byte).

Lemma len_nonneg {A : Type} (l : list A) : (0 <= len l)%Z.
Proof. unfold len. lia. Qed.

Lemma len_nil_iff {A : Type} (l : list A) : len l = 0%Z ↔ l = [].
Proof.
  unfold len. destruct l as [|a l]; simpl; split; intros H; try done; lia.
Qed.

Lemma len_cons {A : Type} (a : A) (l : list A) : len (a :: l) = (len l + 1)%Z.
Proof. unfold len. rewrite length_cons. lia. Qed.

Lemma byte_eqb_neq (a b : byte) : a ≠ b → Byte.eqb a b = false.
Proof.
  intros Hne. destruct (Byte.eqb a b) eqn:E; [|done].
  by apply Byte.byte_dec_bl in E.
Qed.

(** The write of a save touches the snapshot file and the log only. *)
Lemma saveState_write_memory w data st :
  clients (saveState_write w data st) = clients st
  ∧ sharedState (saveState_write w data st) = sharedState st
  ∧ saves (saveState_write w data st) = saves st.
Proof.
  unfold saveState_write. destruct (len data =? 0)%Z; [done|].
  by destruct w.
Qed.

(** [saveState], called as a whole, is its two halves with nothing in
    between. *)
Lemma saveState_halves w st :
  saveState w st = saveState_write w (saveState_read st) st.
Proof. done. Qed.

(** [logYDocContent] writes log lines and nothing else. *)
Lemma logYDocContent_frame p st :
  clients (logYDocContent p st) = clients st
  ∧ sharedState (logYDocContent p st) = sharedState st
  ∧ disk (logYDocContent p st) = disk st
  ∧ saves (logYDocContent p st) = saves st.
Proof.
  unfold logYDocContent.
  destruct (len p >? maxUpdateSize)%Z; [done|].
  by destruct (len p >? 0)%Z.
Qed.

(** The lines [logYDocContent] writes for a payload over the limit. *)
Lemma logYDocContent_oversize p st :
  (len p > maxUpdateSize)%Z →
  log (logYDocContent p st) = log st ++ [LogOversize (len p) maxUpdateSize].
Proof.
  intros H. unfold logYDocContent.
  by rewrite (proj2 (Z.gtb_gt _ _) H).
Qed.

(** [broadcastMessage] touches the queues of the registry only. *)
Lemma broadcastMessage_frame c msg st :
  (broadcastMessage c msg st).1 = None
  ∧ sharedState (broadcastMessage c msg st).2 = sharedState st
  ∧ disk (broadcastMessage c msg st).2 = disk st
  ∧ saves (broadcastMessage c msg st).2 = saves st
  ∧ log (broadcastMessage c msg st).2 = log st.
Proof. done. Qed.

(** What [broadcastMessage] leaves under each address of the registry. *)
Lemma broadcastMessage_lookup c msg st d :
  clients (broadcastMessage c msg st).2 !! d
  = (λ cl, if decide (d ≠ c) then try_send msg cl else cl) <$> clients st !! d.
Proof.
  unfold broadcastMessage, set_clients; simpl.
  rewrite map_lookup_imap. by destruct (clients st !! d).
Qed.

Lemma broadcastMessage_dom c msg st :
  dom (clients (broadcastMessage c msg st).2) = dom (clients st).
Proof.
  apply set_eq. intros d. rewrite !elem_of_dom, broadcastMessage_lookup.
  by rewrite fmap_is_Some.
Qed.

(** A queue with room takes the frame at its end. *)
Lemma try_send_room msg cl :
  (length (chan_buf (send cl)) < chan_cap (send cl))%nat →
  try_send msg cl
  = Client (conn_open cl) (Chan (chan_cap (send cl)) (chan_buf (send cl) ++ [msg])).
Proof. intros H. unfold try_send. by rewrite decide_True. Qed.

(** A full queue is left as it is. *)
Lemma try_send_full msg cl :
  (chan_cap (send cl) ≤ length (chan_buf (send cl)))%nat →
  try_send msg cl = cl.
Proof. intros H. unfold try_send. rewrite decide_False; [done | lia]. Qed.

(** An update frame with a payload: the blob is replaced, the payload is
    logged and a save is spawned. *)
Lemma handleUpdate_payload c p st :
  p ≠ [] →
  handleUpdate c (x02 :: p) st
  = go_saveState (logYDocContent p (set_sharedState p st)).
Proof.
  intros Hp. unfold handleUpdate.
  assert (len p ≠ 0%Z) as Hlen by by rewrite len_nil_iff.
  assert ((len (x02 :: p) <? 2)%Z = false) as ->.
  { apply Z.ltb_ge. rewrite len_cons. pose proof (len_nonneg p). lia. }
  by rewrite (proj2 (Z.eqb_neq _ _) Hlen).
Qed.

(** The frame [[2]] carries no payload: [handleUpdate] returns at once. *)
Lemma handleUpdate_bare c st : handleUpdate c [x02] st = st.
Proof. done. Qed.

(** [handleMessage] on an update frame with a payload. *)
Lemma handleMessage_update c p st :
  p ≠ [] →
  handleMessage c (x02 :: p) st
  = broadcastMessage c (x02 :: p)
      (go_saveState (logYDocContent p (set_sharedState p
         (logf (LogReceived x02 (len (x02 :: p))) st)))).
Proof.
  intros Hp. unfold handleMessage.
  change (Byte.eqb x02 x02) with true; cbv iota.
  by rewrite handleUpdate_payload.
Qed.

(** [handleMessage] on a frame whose tag is not 2. *)
Lemma handleMessage_relay c tag p st :
  tag ≠ x02 →
  handleMessage c (tag :: p) st
  = broadcastMessage c (tag :: p) (logf (LogReceived tag (len (tag :: p))) st).
Proof.
  intros Ht. unfold handleMessage. by rewrite byte_eqb_neq.
Qed.

End Frames.

(** * The relay step as a whole *)

Section Relay.

Implicit Types (st : State) (c d : nat) (msg p : list byte).

(** [handleUpdate] never touches the registry. *)
Lemma handleUpdate_clients c msg st : clients (handleUpdate c msg st) = clients st.
Proof.
  unfold handleUpdate. destruct msg as [|tag update]; [done|].
  destruct (_ || _); [done|]. destruct (len update =? 0)%Z; [done|].
  unfold go_saveState; simpl.
  by destruct (logYDocContent_frame update (set_sharedState update st)) as [-> _].
Qed.

(** [handleMessage] returns [nil] whatever the frame. *)
Lemma handleMessage_nil c msg st : (handleMessage c msg st).1 = None.
Proof. by destruct msg. Qed.

(** Every non-empty frame reaches [broadcastMessage]: each entry of the
    registry other than the sender is offered the frame. *)
Lemma handleMessage_lookup c msg st d :
  msg ≠ [] →
  clients (handleMessage c msg st).2 !! d
  = (λ cl, if decide (d ≠ c) then try_send msg cl else cl) <$> clients st !! d.
Proof.
  intros Hmsg. destruct msg as [|tag p]; [done|].
  unfold handleMessage. rewrite broadcastMessage_lookup.
  destruct (Byte.eqb tag x02); [|done].
  by rewrite handleUpdate_clients.
Qed.

(** The sender's own entry is never touched. *)
Lemma handleMessage_sender c msg st : untouched st (handleMessage c msg st).2 c.
Proof.
  unfold untouched. destruct msg as [|tag p]; [done|].
  rewrite handleMessage_lookup by done.
  destruct (clients st !! c); simpl; [|done].
  case_decide; [congruence | done].
Qed.

(** A step that offers the frame to [d] delivers it when [d] has room. *)
Lemma offered_delivered c msg st st' d :
  clients st' !! d
  = (λ cl, if decide (d ≠ c) then try_send msg cl else cl) <$> clients st !! d →
  d ≠ c → has_room st d → delivered msg st st' d.
Proof.
  intros Hst' Hd (cl & Hcl & Hroom).
  exists (chan_buf (send cl)). unfold pending.
  rewrite Hst', Hcl; simpl. split; [done|].
  case_decide; [|done]. by rewrite try_send_room.
Qed.

(** A step that offers the frame to [d] leaves [d] alone when its queue
    is full. *)
Lemma offered_dropped c msg st st' d cl :
  clients st' !! d
  = (λ cl, if decide (d ≠ c) then try_send msg cl else cl) <$> clients st !! d →
  clients st !! d = Some cl →
  (chan_cap (send cl) ≤ length (chan_buf (send cl)))%nat →
  untouched st st' d.
Proof.
  intros Hst' Hcl Hfull. unfold untouched.
  rewrite Hst', Hcl; simpl.
  case_decide; [|done]. by rewrite try_send_full.
Qed.

(** An update with a payload: the fields other than the registry. *)
Lemma handleMessage_update_fields c p st :
  p ≠ [] →
  sharedState (handleMessage c (x02 :: p) st).2 = p
  ∧ saves (handleMessage c (x02 :: p) st).2 = S (saves st)
  ∧ disk (handleMessage c (x02 :: p) st).2 = disk st
  ∧ log (handleMessage c (x02 :: p) st).2
    = log (logYDocContent p (logf (LogReceived x02 (len (x02 :: p))) st)).
Proof.
  intros Hp. rewrite handleMessage_update by done.
  set (st1 := set_sharedState p (logf _ st)).
  destruct (logYDocContent_frame p st1) as (_ & Hs & Hd & Hn).
  simpl. rewrite Hs, Hd, Hn. repeat split.
  unfold logYDocContent, st1.
  destruct (len p >? maxUpdateSize)%Z; [done|].
  by destruct (len p >? 0)%Z.
Qed.

(** A frame that is not an update: the fields other than the registry. *)
Lemma handleMessage_relay_fields c tag p st :
  tag ≠ x02 →
  sharedState (handleMessage c (tag :: p) st).2 = sharedState st
  ∧ saves (handleMessage c (tag :: p) st).2 = saves st
  ∧ disk (handleMessage c (tag :: p) st).2 = disk st
  ∧ log (handleMessage c (tag :: p) st).2
    = log st ++ [LogReceived tag (len (tag :: p))].
Proof. intros Ht. by rewrite handleMessage_relay. Qed.

(** The payload [oversized] is over the limit. *)
Lemma oversized_len : len oversized = (maxUpdateSize + 1)%Z.
Proof.
  unfold len, oversized. rewrite length_replicate.
  apply Z2Nat.id. unfold maxUpdateSize. lia.
Qed.

Lemma oversized_nonempty : oversized ≠ [].
Proof.
  intros H. apply len_nil_iff in H. rewrite oversized_len in H.
  unfold maxUpdateSize in H. lia.
Qed.

End Relay.

(** * Oversized updates (claim C1) *)

Section Oversized.

Implicit Types (st : State) (c d : nat) (p : list byte).

(** C1, as stated, fails. Clients 1, 2 and 3 share room r1 and the blob
    is empty; client 1 sends an update whose payload is one byte over
    10 MiB. The payload becomes the Shared State Blob, a save is
    spawned, and the frame joins the queue of client 2. *)
Lemma C1_oversized_update_is_applied :
  let frame := x02 :: oversized in
  let st' := (handleMessage 1 frame three_in_r1).2 in
  (len oversized > maxUpdateSize)%Z
  ∧ sharedState three_in_r1 = [] ∧ sharedState st' = oversized
  ∧ sharedState st' ≠ sharedState three_in_r1
  ∧ saves three_in_r1 = 0%nat ∧ saves st' = 1%nat
  ∧ pending three_in_r1 2 = Some [] ∧ pending st' 2 = Some [frame].
Proof.
  intros frame st'. subst frame st'.
  destruct (handleMessage_update_fields 1 oversized three_in_r1 oversized_nonempty)
    as (Hblob & Hsaves & _ & _).
  rewrite Hblob, Hsaves.
  split; [rewrite oversized_len; lia|].
  split; [reflexivity|]. split; [reflexivity|].
  split; [apply oversized_nonempty|].
  split; [reflexivity|]. split; [reflexivity|].
  split; [reflexivity|].
  unfold pending. rewrite handleMessage_lookup by done.
  reflexivity.
Qed.

(** C1, amended. An update whose payload exceeds 10 MiB is logged with
    the size warning and is relayed like any other frame, to every other
    registered client whose queue has room; every update with a
    non-empty payload of at most 10 MiB replaces the blob and spawns a
    save. What becomes of the blob and of the save when the payload is
    over the limit is not part of the statement. *)
Theorem C1_oversized_warned_and_relayed c p st :
  p ≠ [] →
  let st' := (handleMessage c (x02 :: p) st).2 in
  ((len p > maxUpdateSize)%Z →
     log st' = log st ++ [LogReceived x02 (len (x02 :: p));
                          LogOversize (len p) maxUpdateSize]
     ∧ ∀ d, d ≠ c → has_room st d → delivered (x02 :: p) st st' d)
  ∧ ((len p ≤ maxUpdateSize)%Z →
     sharedState st' = p ∧ saves st' = S (saves st)).
Proof.
  intros Hp st'. subst st'.
  destruct (handleMessage_update_fields c p st Hp) as (Hblob & Hsaves & _ & Hlog).
  split.
  - intros Hbig. split.
    + rewrite Hlog, logYDocContent_oversize by done.
      simpl. by rewrite <- app_assoc.
    + intros d Hd Hroom.
      eapply offered_delivered; [|done..].
      by apply handleMessage_lookup.
  - done.
Qed.

(** The amended C1 at two inputs: the payload one byte over the limit,
    sent to [three_in_r1], and the payload [1, 2, 3]. *)
Lemma C1_oversized_warned_and_relayed_witness :
  delivered (x02 :: oversized) three_in_r1
    (handleMessage 1 (x02 :: oversized) three_in_r1).2 2
  ∧ sharedState (handleMessage 1 [x02; x01; x02; x03] three_in_r1).2
    = [x01; x02; x03].
Proof.
  split.
  - refine (proj2 (proj1 (C1_oversized_warned_and_relayed 1 oversized three_in_r1
                            oversized_nonempty) _) 2 _ _).
    + rewrite oversized_len. lia.
    + done.
    + eexists. split; [reflexivity | simpl; lia].
  - refine (proj1 (proj2 (C1_oversized_warned_and_relayed 1 [x01; x02; x03]
                            three_in_r1 _) _)).
    + done.
    + vm_compute. discriminate.
Defined.

End Oversized.

(** * Empty frames and unknown tags (claim C2) *)

Section Unknown.

Implicit Types (st : State) (c d : nat) (msg p : list byte).

(** C2, as stated, fails. Clients 1, 2 and 3 share room r1; client 1
    sends the frame [[3]], whose tag is neither 0, 1 nor 2. The frame
    joins the queues of clients 2 and 3. *)
Lemma C2_unknown_tag_is_relayed :
  let st' := (handleMessage 1 [x03] three_in_r1).2 in
  x03 ≠ x00 ∧ x03 ≠ x01 ∧ x03 ≠ x02
  ∧ pending three_in_r1 2 = Some [] ∧ pending st' 2 = Some [[x03]]
  ∧ pending three_in_r1 3 = Some [] ∧ pending st' 3 = Some [[x03]].
Proof. intros st'. subst st'. by repeat split. Qed.

(** C2, amended. An empty frame is a no-op. A frame whose first byte is
    neither 0, 1 nor 2 leaves the Shared State Blob and the snapshot
    file unchanged, spawns no save, returns no error (the sender's
    connection stays open, its registry entry untouched), and is relayed
    like a sync frame: it is delivered to every other registered client
    whose queue has room. *)
Theorem C2_empty_noop_unknown_relayed c msg st :
  (msg = [] ∨ ∃ tag p, msg = tag :: p ∧ tag ≠ x00 ∧ tag ≠ x01 ∧ tag ≠ x02) →
  let r := handleMessage c msg st in
  r.1 = None
  ∧ sharedState r.2 = sharedState st
  ∧ disk r.2 = disk st
  ∧ saves r.2 = saves st
  ∧ untouched st r.2 c
  ∧ (msg = [] → r.2 = st)
  ∧ (msg ≠ [] → ∀ d, d ≠ c → has_room st d → delivered msg st r.2 d).
Proof.
  intros Hmsg r. subst r.
  split; [apply handleMessage_nil|].
  destruct Hmsg as [-> | (tag & p & -> & _ & _ & Htag)].
  - by repeat split.
  - destruct (handleMessage_relay_fields c tag p st Htag) as (Hblob & Hsaves & Hdisk & _).
    repeat split; try done.
    + apply handleMessage_sender.
    + intros _ d Hd Hroom.
      eapply offered_delivered; [|done..].
      by apply handleMessage_lookup.
Qed.

(** The amended C2 at the empty frame and at the frame [[3]], both sent
    by client 1 of [three_in_r1]. *)
Lemma C2_empty_noop_unknown_relayed_witness :
  (handleMessage 1 [] three_in_r1).2 = three_in_r1
  ∧ delivered [x03] three_in_r1 (handleMessage 1 [x03] three_in_r1).2 2.
Proof.
  split.
  - refine (proj1 (proj2 (proj2 (proj2 (proj2 (proj2
              (C2_empty_noop_unknown_relayed 1 [] three_in_r1 _)))))) _);
      [by left | done].
  - refine (proj2 (proj2 (proj2 (proj2 (proj2 (proj2
              (C2_empty_noop_unknown_relayed 1 [x03] three_in_r1 _)))))) _ 2 _ _).
    + right. exists x03, []. by repeat split.
    + done.
    + done.
    + eexists. split; [reflexivity | simpl; lia].
Defined.

End Unknown.

(** * Rooms (claim C3) *)

Section Rooms.

Implicit Types (st : State) (c d : nat) (msg : list byte).

(** The room name of a connection reaches the log and nothing else. *)
Lemma HandleWebSocket_register_room ip room room' c st :
  clients (HandleWebSocket_register ip room c st)
  = clients (HandleWebSocket_register ip room' c st).
Proof. done. Qed.

(** The registry built by a session is the same whatever rooms the
    clients named. *)
Lemma connect_all_forget_rooms ip conns st :
  clients (connect_all ip conns st) = clients (connect_all ip (forget_rooms conns) st).
Proof.
  unfold connect_all, forget_rooms.
  assert (∀ st1 st2, clients st1 = clients st2 →
    clients (foldl (λ s conn, HandleWebSocket_register ip conn.2 conn.1 s) st1 conns)
    = clients (foldl (λ s conn, HandleWebSocket_register ip conn.2 conn.1 s) st2
                 ((λ conn, (conn.1, ""%string)) <$> conns))) as Hgen.
  { induction conns as [|[c room] conns IH]; intros st1 st2 Heq; [done|].
    simpl. apply IH. simpl. by rewrite Heq. }
  by apply Hgen.
Qed.

(** C3, as stated, fails. Client 1 connects to room r1 and client 2 to
    room r2; client 1 sends the update [[2, 1, 2, 3]]. The frame joins
    the queue of client 2. *)
Lemma C3_frame_crosses_rooms :
  let st := connect_all "10.0.0.1" [(1, "r1"); (2, "r2")]%string (init false None) in
  let st' := (handleMessage 1 [x02; x01; x02; x03] st).2 in
  "r1"%string ≠ "r2"%string
  ∧ pending st 2 = Some []
  ∧ pending st' 2 = Some [[x02; x01; x02; x03]]
  ∧ pending (broadcastMessage 1 [x02; x01; x02; x03] st).2 2
    = Some [[x02; x01; x02; x03]].
Proof. intros st st'. subst st st'. by repeat split. Qed.

(** C3, amended. The registry is one set for the whole process and does
    not record rooms: for every broadcast of a frame sent by a client
    [c], the recipients are registered clients other than [c], and every
    registered client other than [c] whose queue has room receives the
    frame, whatever room it or [c] connected to. *)
Theorem C3_recipients_any_room ip conns st0 c msg :
  let st := connect_all ip conns st0 in
  let st' := (broadcastMessage c msg st).2 in
  (∀ d, ¬ untouched st st' d → registered st d ∧ d ≠ c)
  ∧ (∀ d, d ≠ c → has_room st d → delivered msg st st' d)
  ∧ clients st = clients (connect_all ip (forget_rooms conns) st0).
Proof.
  intros st st'. subst st'. split; [|split].
  - intros d Hd. unfold untouched in Hd.
    rewrite broadcastMessage_lookup in Hd. split.
    + unfold registered. destruct (clients st !! d); [by eexists | done].
    + intros ->. apply Hd.
      destruct (clients st !! c); simpl; [|done].
      case_decide; [congruence | done].
  - intros d Hd Hroom.
    eapply offered_delivered; [|done..].
    apply broadcastMessage_lookup.
  - apply connect_all_forget_rooms.
Qed.

End Rooms.

(** * Updates (claims C4 and C9) *)

Section Updates.

Implicit Types (st : State) (c d : nat) (p : list byte).

(** The state [saturated] is the one the relay reaches from
    [three_in_r1] when client 3 sends 256 frames and nothing is drained. *)
Lemma saturated_reached : flood three_in_r1 = saturated.
Proof. vm_compute. reflexivity. Qed.

(** C4, as stated, fails. In [saturated] clients 1, 2 and 3 are
    registered and 256 frames wait in the queue of client 2. Client 1
    sends the update [[2, 1, 2, 3]]: the blob becomes [[1, 2, 3]] and
    client 3 receives the frame, but client 2, a registered client other
    than the sender, does not: its queue is as it was. *)
Lemma C4_full_queue_misses_update :
  let frame := [x02; x01; x02; x03] in
  let st' := (handleMessage 1 frame saturated).2 in
  registered saturated 2
  ∧ pending saturated 2 = Some (replicate 256 [x00])
  ∧ sharedState st' = [x01; x02; x03]
  ∧ pending st' 3 = Some [frame]
  ∧ pending st' 2 = Some (replicate 256 [x00])
  ∧ ¬ delivered frame saturated st' 2.
Proof.
  intros frame st'. subst frame st'.
  assert (pending saturated 2 = Some (replicate 256 [x00])) as Hbefore
    by (vm_compute; reflexivity).
  assert (pending (handleMessage 1 [x02; x01; x02; x03] saturated).2 2
          = Some (replicate 256 [x00])) as Hafter
    by (vm_compute; reflexivity).
  split; [by eexists|].
  split; [exact Hbefore|].
  split; [vm_compute; reflexivity|].
  split; [vm_compute; reflexivity|].
  split; [exact Hafter|].
  intros (q & Hq & Hq').
  rewrite Hbefore in Hq. rewrite Hafter in Hq'.
  assert (q = replicate 256 [x00]) as -> by congruence.
  assert (length (replicate 256 [x00] ++ [[x02; x01; x02; x03]])
          = length (replicate 256 [x00])) as Hlen by congruence.
  rewrite length_app, length_replicate in Hlen. simpl in Hlen. lia.
Qed.

(** C4, amended. For every inbound frame from client [c] whose first
    byte is 2 and whose payload is non-empty, the Shared State Blob
    becomes exactly the payload, and the broadcast that follows delivers
    the original frame, tag included, to every other registered client
    whose outbound queue is not full, and never to [c]. *)
Theorem C4_update_applied_and_relayed c p st :
  p ≠ [] →
  let st' := (handleMessage c (x02 :: p) st).2 in
  sharedState st' = p
  ∧ (∀ d, d ≠ c → has_room st d → delivered (x02 :: p) st st' d)
  ∧ untouched st st' c.
Proof.
  intros Hp st'. subst st'. split; [|split].
  - by apply handleMessage_update_fields.
  - intros d Hd Hroom.
    eapply offered_delivered; [|done..].
    by apply handleMessage_lookup.
  - apply handleMessage_sender.
Qed.

(** The amended C4 on the scenario of the specification: three clients
    in room r1, client 1 sends [[2, 1, 2, 3]]; clients 2 and 3 receive
    that frame once, client 1 nothing, and the blob is [[1, 2, 3]]. *)
Lemma C4_update_applied_and_relayed_witness :
  let st' := (handleMessage 1 [x02; x01; x02; x03] three_in_r1).2 in
  sharedState st' = [x01; x02; x03]
  ∧ delivered [x02; x01; x02; x03] three_in_r1 st' 2
  ∧ delivered [x02; x01; x02; x03] three_in_r1 st' 3
  ∧ untouched three_in_r1 st' 1.
Proof.
  intros st'. subst st'.
  destruct (C4_update_applied_and_relayed 1 [x01; x02; x03] three_in_r1)
    as (Hblob & Hrelay & Hsender); [done|].
  split; [exact Hblob|]. split; [|split; [|exact Hsender]].
  - apply Hrelay; [done|]. eexists. split; [reflexivity | simpl; lia].
  - apply Hrelay; [done|]. eexists. split; [reflexivity | simpl; lia].
Defined.

(** C9. The frame [[2]] has tag 2 and no payload: [handleUpdate] returns
    before it touches the blob, so the blob and the snapshot file are
    unchanged and no save is spawned; the frame still goes through
    [broadcastMessage], which offers it to every registered client other
    than the sender (and delivers it wherever the queue has room). *)
Theorem C9_bare_update_tag_only_relayed c st :
  let st' := (handleMessage c [x02] st).2 in
  sharedState st' = sharedState st
  ∧ saves st' = saves st
  ∧ disk st' = disk st
  ∧ st' = (broadcastMessage c [x02] (logf (LogReceived x02 1) st)).2
  ∧ (∀ d cl, d ≠ c → clients st !! d = Some cl →
       clients st' !! d = Some (try_send [x02] cl))
  ∧ (∀ d, d ≠ c → has_room st d → delivered [x02] st st' d).
Proof.
  intros st'. subst st'. repeat split.
  - intros d cl Hd Hcl. rewrite handleMessage_lookup, Hcl by done.
    simpl. by rewrite decide_True.
  - intros d Hd Hroom.
    eapply offered_delivered; [|done..].
    by apply handleMessage_lookup.
Qed.

End Updates.

(** * Persistence store (claims C5, C6 and C7) *)

Section Persistence.

Implicit Types (st : State) (b : list byte) (d : option (list byte)).

(** A successful save of a non-empty blob leaves exactly the blob on
    disk. *)
Lemma saveState_written b st :
  b ≠ [] → disk (saveState WriteOk (set_sharedState b st)) = Some b.
Proof.
  intros Hb. unfold saveState; simpl.
  assert (len b ≠ 0%Z) as Hlen by by rewrite len_nil_iff.
  by rewrite (proj2 (Z.eqb_neq _ _) Hlen).
Qed.

(** A process that starts over a readable non-empty snapshot holds it as
    its blob. *)
Lemma init_loaded b : b ≠ [] → sharedState (init false (Some b)) = b.
Proof.
  intros Hb. unfold init, loadState; simpl.
  assert (len b ≠ 0%Z) as Hlen by by rewrite len_nil_iff.
  by rewrite (proj2 (Z.eqb_neq _ _) Hlen).
Qed.

(** Saving and loading again, in one step. *)
Lemma save_load b st :
  b ≠ [] →
  sharedState (init false (disk (saveState WriteOk (set_sharedState b st)))) = b.
Proof. intros Hb. rewrite saveState_written by done. by apply init_loaded. Qed.

(** C5. For every non-empty [b], a successful [saveState] of the blob
    [b] followed by a restart of the process, whose [init] loads the
    snapshot, gives a Shared State Blob equal to [b]. *)
Theorem C5_save_then_load b st :
  b ≠ [] →
  sharedState (init false (disk (saveState WriteOk (set_sharedState b st)))) = b.
Proof. intros Hb. by apply save_load. Qed.

(** C5 for the blob [[1, 2, 3]], saved by a process that started with no
    snapshot. *)
Lemma C5_save_then_load_witness :
  sharedState
    (init false
       (disk (saveState WriteOk (set_sharedState [x01; x02; x03] (init false None)))))
  = [x01; x02; x03].
Proof. apply (C5_save_then_load [x01; x02; x03] (init false None)). done. Defined.

(** C6. [loadState] leaves the blob as it is when the snapshot file does
    not exist, and also when the read fails for another reason: the
    failure is logged, nothing else happens, and a starting process goes
    on with an empty blob. *)
Theorem C6_load_absent_or_failed st d :
  loadState false (set_disk None st) = logf LogNoSavedState (set_disk None st)
  ∧ loadState true (set_disk d st) = logf LogLoadError (set_disk d st)
  ∧ sharedState (init false None) = []
  ∧ sharedState (init true d) = []
  ∧ log (init true d) = [LogLoadError].
Proof. by repeat split. Qed.

(** C7. [saveState] with an empty blob returns before it writes: the
    state, and with it the snapshot file, are as they were. *)
Theorem C7_save_empty_noop w st :
  saveState w (set_sharedState [] st) = set_sharedState [] st
  ∧ disk (saveState w (set_sharedState [] st)) = disk st.
Proof. by split. Qed.

End Persistence.

(** * Full queues (claim C8) *)

Section Backpressure.

Implicit Types (st : State) (c d : nat) (msg : list byte).

(** C8. In every broadcast, a recipient created by [HandleWebSocket]
    (queue capacity 256) with 256 frames pending is skipped: its entry is
    untouched, [broadcastMessage] returns [nil], and every other
    registered client whose queue has room receives the frame. *)
Theorem C8_full_queue_skipped c msg st d cl :
  d ≠ c →
  clients st !! d = Some cl →
  chan_cap (send cl) = 256%nat →
  length (chan_buf (send cl)) = 256%nat →
  let r := broadcastMessage c msg st in
  r.1 = None
  ∧ untouched st r.2 d
  ∧ (∀ e, e ≠ c → has_room st e → delivered msg st r.2 e).
Proof.
  intros Hd Hcl Hcap Hlen r. subst r. split; [done|]. split.
  - eapply offered_dropped; [apply broadcastMessage_lookup | done | lia].
  - intros e He Hroom.
    eapply offered_delivered; [|done..].
    apply broadcastMessage_lookup.
Qed.

(** C8 on [saturated]: client 1 broadcasts [[0, 9]]; client 2, with 256
    frames pending, is skipped and client 3 receives the frame. *)
Lemma C8_full_queue_skipped_witness :
  let r := broadcastMessage 1 [x00; x09] saturated in
  r.1 = None
  ∧ untouched saturated r.2 2
  ∧ delivered [x00; x09] saturated r.2 3.
Proof.
  intros r. subst r.
  destruct (C8_full_queue_skipped 1 [x00; x09] saturated 2
              (Client true (Chan 256 (replicate 256 [x00]))))
    as (Hnil & Hskip & Hrelay).
  - done.
  - vm_compute. reflexivity.
  - reflexivity.
  - reflexivity.
  - split; [exact Hnil|]. split; [exact Hskip|].
    apply Hrelay; [done|].
    exists (Client true (Chan 256 [])).
    split; [vm_compute; reflexivity | simpl; lia].
Defined.

End Backpressure.

(** * The inbound loop (claim C10) *)

Section ReadLoop.

Implicit Types (st : State) (c : nat) (msg : list byte) (reads : list ReadMessage).

(** The loop returns exactly when one of its reads failed. *)
Lemma readPump_returned c reads st :
  (readPump c reads st).1 = Returned ↔ ∃ r, r ∈ reads ∧ read_failed r = true.
Proof.
  revert st. induction reads as [|r reads IH]; intros st; simpl.
  - split; [done|]. intros (r & Hr & _). by apply elem_of_nil in Hr.
  - destruct r as [message| |].
    + pose proof (handleMessage_nil c message st) as Hnil.
      destruct (handleMessage c message st) as [err st']. simpl in Hnil. subst err.
      rewrite IH. split.
      * intros (r & Hr & Hf). exists r. split; [apply elem_of_cons; by right | done].
      * intros (r & Hr & Hf). apply elem_of_cons in Hr as [-> | Hr]; [done|].
        by exists r.
    + split; [|done]. intros _. exists RecvEOF. split; [apply elem_of_cons; by left | done].
    + split; [|done]. intros _. exists RecvErr. split; [apply elem_of_cons; by left | done].
Qed.

(** While every read succeeds the loop goes on reading, and the sender's
    registry entry, its connection included, stays as it was. *)
Lemma readPump_frames c (frames : list (list byte)) st :
  (readPump c (RecvOk <$> frames) st).1 = Reading
  ∧ untouched st (readPump c (RecvOk <$> frames) st).2 c.
Proof.
  revert st. induction frames as [|msg frames IH]; intros st; simpl; [done|].
  pose proof (handleMessage_nil c msg st) as Hnil.
  pose proof (handleMessage_sender c msg st) as Hsender.
  destruct (handleMessage c msg st) as [err st']. simpl in Hnil, Hsender. subst err.
  destruct (IH st') as [Hreading Hsame]. split; [done|].
  unfold untouched in *. by etrans.
Qed.

(** C10. [handleMessage] returns [nil] for every frame, so [readPump]
    returns only when a [ReadMessage] call fails: whatever frames arrive,
    the loop is still reading after them and the connection of the
    client is open as before. *)
Theorem C10_only_read_failure_ends_loop c :
  (∀ msg st, (handleMessage c msg st).1 = None)
  ∧ (∀ reads st,
       (readPump c reads st).1 = Returned ↔ ∃ r, r ∈ reads ∧ read_failed r = true)
  ∧ (∀ (frames : list (list byte)) st,
       (readPump c (RecvOk <$> frames) st).1 = Reading
       ∧ untouched st (readPump c (RecvOk <$> frames) st).2 c).
Proof.
  split; [|split].
  - intros msg st. apply handleMessage_nil.
  - intros reads st. apply readPump_returned.
  - intros frames st. apply readPump_frames.
Qed.

End ReadLoop.

(** * Queues stay within their capacity *)

Section Bounded.

Implicit Types (st : State) (c d : nat) (msg : list byte).

(** A step that changes only the log, the blob, the disk or the count of
    spawned saves keeps the queues as they are. *)
Lemma queues_bounded_same_clients st st' :
  clients st' = clients st → queues_bounded st → queues_bounded st'.
Proof. intros Heq Hb d cl. rewrite Heq. apply Hb. Qed.

Lemma saveState_clients w st : clients (saveState w st) = clients st.
Proof.
  unfold saveState. destruct (len (sharedState st) =? 0)%Z; [done|].
  by destruct w.
Qed.

Lemma loadState_clients fault st : clients (loadState fault st) = clients st.
Proof.
  unfold loadState. destruct (os_ReadFile fault (disk st)); [|done..].
  by destruct (len data =? 0)%Z.
Qed.

Lemma try_send_bounded msg cl :
  chan_cap (send cl) = 256%nat ∧ (length (chan_buf (send cl)) ≤ 256)%nat →
  chan_cap (send (try_send msg cl)) = 256%nat
  ∧ (length (chan_buf (send (try_send msg cl))) ≤ 256)%nat.
Proof.
  intros [Hcap Hlen]. unfold try_send. case_decide; [|done].
  simpl. rewrite length_app. simpl. lia.
Qed.

Lemma queues_bounded_init fault dsk : queues_bounded (init fault dsk).
Proof.
  intros d cl. unfold init. rewrite loadState_clients. simpl.
  by rewrite lookup_empty.
Qed.

Lemma queues_bounded_handleMessage c msg st :
  queues_bounded st → queues_bounded (handleMessage c msg st).2.
Proof.
  intros Hb d cl. destruct msg as [|tag p]; [apply Hb|].
  rewrite handleMessage_lookup by done.
  destruct (clients st !! d) as [cl0|] eqn:Hd; simpl; [|done].
  intros [= <-]. case_decide; [|by eapply Hb].
  apply try_send_bounded. by eapply Hb.
Qed.

(** An update of one entry that keeps the capacity and does not lengthen
    the queue. *)
Lemma queues_bounded_alter (f : client → client) c st :
  (∀ cl, chan_cap (send (f cl)) = chan_cap (send cl)
         ∧ (length (chan_buf (send (f cl))) ≤ length (chan_buf (send cl)))%nat) →
  queues_bounded st → queues_bounded (set_clients (alter f c) st).
Proof.
  intros Hf Hb d cl. unfold set_clients; simpl.
  rewrite lookup_alter. case_decide; [subst d|apply Hb].
  destruct (clients st !! c) as [cl0|] eqn:Hc; simpl; [|done].
  intros [= <-]. destruct (Hf cl0) as [Hcap Hlen].
  destruct (Hb _ _ Hc) as [Hcap0 Hlen0]. split; [congruence | lia].
Qed.

Lemma queues_bounded_step st st' :
  step st st' → queues_bounded st → queues_bounded st'.
Proof.
  intros Hstep Hb. destruct Hstep as
    [ip room c st Hfresh | c msg st | c r st Hr | c st | ok c st
     | n st Hn | w data st | w st].
  - intros d cl. unfold HandleWebSocket_register, set_clients; simpl.
    rewrite lookup_insert. case_decide; [|apply Hb].
    intros [= <-]. simpl. lia.
  - by apply queues_bounded_handleMessage.
  - destruct r; [done | |]; simpl.
    all: by apply queues_bounded_alter.
  - intros d cl. unfold HandleWebSocket_cleanup, set_clients; simpl.
    rewrite lookup_delete. case_decide; [done | apply Hb].
  - unfold writePump_turn.
    destruct (clients st !! c) as [cl0|] eqn:Hc; [|done].
    destruct (chan_buf (send cl0)) as [|message rest] eqn:Hbuf; [done|].
    assert (queues_bounded
              (set_clients
                 (insert c (Client (conn_open cl0) (Chan (chan_cap (send cl0)) rest))) st))
      as Hturn.
    { intros d cl. unfold set_clients; simpl.
      rewrite lookup_insert. case_decide; [|apply Hb].
      intros [= <-]. simpl. destruct (Hb _ _ Hc) as [Hcap Hlen].
      rewrite Hbuf in Hlen. simpl in Hlen. split; [done | lia]. }
    by destruct ok.
  - done.
  - eapply queues_bounded_same_clients; [|done].
    by destruct (saveState_write_memory w data st) as (-> & _ & _).
  - eapply queues_bounded_same_clients; [|done].
    unfold autoSave_tick. destruct (len (sharedState st) >? 0)%Z; [|done].
    by rewrite saveState_clients.
Qed.

(** X13. In every state the relay reaches, every registered client has a
    queue of capacity 256 holding at most 256 frames. *)
Lemma queues_bounded_reachable st : reachable st → queues_bounded st.
Proof.
  intros (fault & dsk & Hsteps).
  apply (rtc_ind_r (R := step) (λ s, queues_bounded s) (init fault dsk));
    [| |exact Hsteps].
  - apply queues_bounded_init.
  - intros st1 st2 _ Hstep IH. by eapply queues_bounded_step.
Qed.

(** The state [saturated] is one of them. *)
Lemma saturated_reachable : reachable saturated.
Proof.
  exists false, None. rewrite <- saturated_reached.
  assert (∀ conns st, NoDup conns.*1 → (∀ c, c ∈ conns.*1 → clients st !! c = None) →
            rtc step st (connect_all "10.0.0.1" conns st)) as Hconnect.
  { induction conns as [|[c room] conns IH]; intros st Hnd Hfresh; simpl; [done|].
    apply NoDup_cons in Hnd as [Hc Hnd].
    eapply rtc_l; [apply (step_register "10.0.0.1" room c st), Hfresh; simpl;
                    apply elem_of_cons; by left|].
    apply IH; [done|]. intros c' Hc'.
    unfold HandleWebSocket_register, set_clients; simpl.
    rewrite lookup_insert_ne by (intros ->; done).
    apply Hfresh. simpl. apply elem_of_cons. by right. }
  assert (∀ n st, rtc step st (Nat.iter n (λ s, (handleMessage 3 [x00] s).2) st)) as Hflood.
  { induction n as [|n IH]; intros st; [done|].
    rewrite Nat.iter_succ.
    eapply rtc_r; [apply IH | apply step_message]. }
  etrans; [|apply Hflood].
  apply Hconnect.
  - simpl. compute_done.
  - intros c _. unfold init. rewrite loadState_clients. apply lookup_empty.
Qed.

End Bounded.

(** * Autosave and the snapshot file *)

Section Autosave.

Implicit Types (st : State) (w : WriteOutcome).

(** [saveState] changes the snapshot file and the log only. *)
Lemma saveState_memory w st :
  clients (saveState w st) = clients st
  ∧ sharedState (saveState w st) = sharedState st
  ∧ saves (saveState w st) = saves st.
Proof.
  unfold saveState. destruct (len (sharedState st) =? 0)%Z; [done|].
  by destruct w.
Qed.

(** The test of [autoSave] repeats the one [saveState] makes itself. *)
Lemma autoSave_tick_saveState w st : autoSave_tick w st = saveState w st.
Proof.
  unfold autoSave_tick, saveState.
  pose proof (len_nonneg (sharedState st)) as Hlen.
  destruct (Z.gtb_spec (len (sharedState st)) 0) as [Hpos|Hzero].
  - by rewrite (proj2 (Z.eqb_neq _ _)) by lia.
  - by rewrite (proj2 (Z.eqb_eq _ _)) by lia.
Qed.

(** The file a successful tick leaves: the blob when there is one, and
    what was there before otherwise. *)
Lemma autoSave_tick_disk st :
  disk (autoSave_tick WriteOk st)
  = if decide (sharedState st = []) then disk st else Some (sharedState st).
Proof.
  rewrite autoSave_tick_saveState. unfold saveState.
  case_decide as Hblob.
  - by rewrite (proj2 (Z.eqb_eq _ _)) by by apply len_nil_iff.
  - assert (len (sharedState st) ≠ 0%Z) as Hlen by by rewrite len_nil_iff.
    by rewrite (proj2 (Z.eqb_neq _ _) Hlen).
Qed.

(** X1. Autosave is idempotent: two ticks of the ticker in a row, both
    writes succeeding and no update in between, leave the file the first
    tick left; neither tick changes the blob, the registry or the number
    of spawned saves. *)
Theorem autoSave_twice st :
  let st1 := autoSave_tick WriteOk st in
  let st2 := autoSave_tick WriteOk st1 in
  disk st2 = disk st1
  ∧ sharedState st2 = sharedState st
  ∧ clients st2 = clients st
  ∧ saves st2 = saves st.
Proof.
  intros st1 st2. subst st1 st2.
  rewrite !autoSave_tick_disk.
  rewrite !autoSave_tick_saveState.
  destruct (saveState_memory WriteOk st) as (Hc1 & Hb1 & Hn1).
  destruct (saveState_memory WriteOk (saveState WriteOk st)) as (Hc2 & Hb2 & Hn2).
  rewrite Hc2, Hb2, Hn2, Hc1, Hb1, Hn1.
  split; [|done]. by case_decide.
Qed.

(** X2. A failed write never reaches the memory of the process: whatever
    [os.WriteFile] does, [saveState] and a tick of [autoSave] leave the
    blob, the registry and the spawned saves as they were, and the only
    trace of a failure is the line [LogSaveError] (with the file as the
    failure left it). *)
Theorem save_failure_contained left st :
  let st' := saveState (WriteErr left) st in
  clients st' = clients st
  ∧ sharedState st' = sharedState st
  ∧ saves st' = saves st
  ∧ (sharedState st = [] → st' = st)
  ∧ (sharedState st ≠ [] →
       log st' = log st ++ [LogSaveError] ∧ disk st' = left)
  ∧ autoSave_tick (WriteErr left) st = st'.
Proof.
  intros st'. subst st'.
  destruct (saveState_memory (WriteErr left) st) as (Hc & Hb & Hn).
  split; [done|]. split; [done|]. split; [done|].
  split; [|split].
  - intros Hblob. unfold saveState.
    by rewrite (proj2 (Z.eqb_eq _ _)) by by apply len_nil_iff.
  - intros Hblob. unfold saveState.
    assert (len (sharedState st) ≠ 0%Z) as Hlen by by rewrite len_nil_iff.
    by rewrite (proj2 (Z.eqb_neq _ _) Hlen).
  - apply autoSave_tick_saveState.
Qed.

(** X3. [loadState] reads and never writes: the file and the registry are
    as before; the blob afterwards is either the old one or the non-empty
    content of the file. An empty file is treated like a missing one: the
    blob stays and the line [LogSavedEmpty] is written. *)
Theorem loadState_reads_only fault st :
  let st' := loadState fault st in
  disk st' = disk st
  ∧ clients st' = clients st
  ∧ saves st' = saves st
  ∧ (sharedState st' = sharedState st
     ∨ (sharedState st' ≠ [] ∧ fault = false ∧ disk st = Some (sharedState st')))
  ∧ (fault = false → disk st = Some [] →
       st' = logf LogSavedEmpty st).
Proof.
  intros st'. subst st'. unfold loadState, os_ReadFile.
  destruct fault.
  { split; [done|]. split; [done|]. split; [done|]. split; [by left | done]. }
  destruct (disk st) as [data|] eqn:Hdisk.
  2: { split; [done|]. split; [done|]. split; [done|]. split; [by left | done]. }
  destruct (Z.eqb_spec (len data) 0) as [Hzero|Hpos].
  - split; [done|]. split; [done|]. split; [done|]. split; [by left | done].
  - split; [done|]. split; [done|]. split; [done|]. split.
    + right. split; [|done]. simpl. intros ->. by apply Hpos.
    + intros _ [= ->]. by destruct Hpos.
Qed.

End Autosave.

(** * Sequences of frames *)

Section Sequences.

Implicit Types (st : State) (c d : nat) (msg p : list byte)
  (inputs : list (nat * list byte)).

(** A payload that [handleUpdate] takes is never empty. *)
Lemma update_payload_nonempty msg p : update_payload msg = Some p → p ≠ [].
Proof.
  destruct msg as [|tag [|b rest]]; [done..|]. simpl.
  destruct (Byte.eqb tag x02); [|done]. by intros [= <-].
Qed.

(** The blob and the spawned saves after any frame, read off
    [update_payload]. *)
Lemma handleMessage_payload c msg st :
  sharedState (handleMessage c msg st).2 = default (sharedState st) (update_payload msg)
  ∧ saves (handleMessage c msg st).2
    = (saves st + length (option_list (update_payload msg)))%nat
  ∧ disk (handleMessage c msg st).2 = disk st.
Proof.
  destruct msg as [|tag rest]; [simpl; by rewrite Nat.add_0_r|].
  destruct (Byte.eqb tag x02) eqn:Htag.
  - apply Byte.byte_dec_bl in Htag as ->.
    destruct rest as [|b p]; [simpl; by rewrite Nat.add_0_r|].
    destruct (handleMessage_update_fields c (b :: p) st) as (Hblob & Hsaves & Hdisk & _);
      [done|].
    rewrite Hblob, Hsaves, Hdisk. simpl. split; [done|]. split; [lia | done].
  - assert (tag ≠ x02) as Hne by (intros ->; done).
    destruct (handleMessage_relay_fields c tag rest st Hne) as (Hblob & Hsaves & Hdisk & _).
    rewrite Hblob, Hsaves, Hdisk.
    assert (update_payload (tag :: rest) = None) as ->.
    { destruct rest; [done|]. simpl. by rewrite Htag. }
    simpl. by rewrite Nat.add_0_r.
Qed.

Lemma handle_all_cons c msg inputs st :
  handle_all ((c, msg) :: inputs) st = handle_all inputs (handleMessage c msg st).2.
Proof. done. Qed.

Lemma accepted_cons c msg inputs :
  accepted ((c, msg) :: inputs) = option_list (update_payload msg) ++ accepted inputs.
Proof. unfold accepted. simpl. by destruct (update_payload msg). Qed.

Lemma default_last_cons {A : Type} (x y : A) (l : list A) :
  default x (last (y :: l)) = default y (last l).
Proof. rewrite last_cons. by destruct (last l). Qed.

(** X4. Last writer wins. After the relay has handled any sequence of
    frames from any senders, the blob is the payload of the last update
    frame that carried one, whoever sent it and whatever its size, and it
    is the blob from before when there was no such frame; nothing is ever
    merged. *)
Theorem last_update_wins inputs st :
  sharedState (handle_all inputs st) = default (sharedState st) (last (accepted inputs)).
Proof.
  revert st. induction inputs as [|[c msg] inputs IH]; intros st; [done|].
  rewrite handle_all_cons, accepted_cons, IH.
  destruct (handleMessage_payload c msg st) as (-> & _ & _).
  destruct (update_payload msg) as [p|]; [|done].
  simpl option_list. simpl app. by rewrite default_last_cons.
Qed.

(** X5. One save is spawned for each update frame that carries a payload,
    and for no other frame; handling frames never writes the file
    itself. *)
Theorem saves_count_updates inputs st :
  saves (handle_all inputs st) = (saves st + length (accepted inputs))%nat
  ∧ disk (handle_all inputs st) = disk st.
Proof.
  revert st. induction inputs as [|[c msg] inputs IH]; intros st.
  { simpl. by rewrite Nat.add_0_r. }
  rewrite handle_all_cons, accepted_cons, length_app.
  destruct (IH (handleMessage c msg st).2) as [-> ->].
  destruct (handleMessage_payload c msg st) as (_ & -> & ->).
  split; [lia | done].
Qed.

(** X6. The relay never clears the blob: once it is non-empty, no step
    of the relay (a connection, a frame, a failed read, a cleanup, a
    write, a save, a tick) makes it empty again. *)
Theorem blob_never_cleared st st' :
  rtc step st st' → sharedState st ≠ [] → sharedState st' ≠ [].
Proof.
  intros Hsteps. induction Hsteps as [st|st1 st2 st3 Hstep _ IH]; [done|].
  intros Hblob. apply IH. clear IH.
  destruct Hstep as
    [ip room c st Hfresh | c msg st | c r st Hr | c st | ok c st
     | n st Hn | w data st | w st].
  - done.
  - destruct (handleMessage_payload c msg st) as (-> & _ & _).
    destruct (update_payload msg) as [p|] eqn:Hp; simpl; [|done].
    by eapply update_payload_nonempty.
  - by destruct r.
  - done.
  - unfold writePump_turn. destruct (clients st !! c) as [cl|]; [|done].
    destruct (chan_buf (send cl)); [done|]. by destruct ok.
  - done.
  - by destruct (saveState_write_memory w data st) as (_ & -> & _).
  - rewrite autoSave_tick_saveState.
    by destruct (saveState_memory w st) as (_ & -> & _).
Qed.

(** X6 on [three_in_r1] once client 1 has sent the update [[2, 7]]:
    clients 2 and 3 then send a bare [[2]], an empty frame and a sync
    frame, a save under way fails to write, and the blob is still not
    empty. *)
Lemma blob_never_cleared_witness :
  sharedState
    (saveState_write (WriteErr None) [x07]
       (handle_all [(2, [x02]); (3, []); (2, [x00; x01])]
          (handleMessage 1 [x02; x07] three_in_r1).2))
  ≠ [].
Proof.
  apply (blob_never_cleared (handleMessage 1 [x02; x07] three_in_r1).2).
  - eapply rtc_r; [|apply step_save_written].
    eapply rtc_l; [apply (step_message 2 [x02])|].
    eapply rtc_l; [apply (step_message 3 [])|].
    eapply rtc_l; [apply (step_message 2 [x00; x01])|].
    apply rtc_refl.
  - vm_compute. discriminate.
Defined.

End Sequences.

(** * The registry and the queues *)

Section Registry.

Implicit Types (st : State) (c d e : nat) (msg : list byte).

(** X7. Handling a frame never registers or removes a client and never
    changes a connection or the capacity of a queue: each queue is either
    left as it was or has the frame itself added at its end, once. *)
Theorem handleMessage_registry_shape c msg st :
  let st' := (handleMessage c msg st).2 in
  dom (clients st') = dom (clients st)
  ∧ ∀ d cl, clients st !! d = Some cl →
      ∃ cl', clients st' !! d = Some cl'
             ∧ conn_open cl' = conn_open cl
             ∧ chan_cap (send cl') = chan_cap (send cl)
             ∧ (chan_buf (send cl') = chan_buf (send cl)
                ∨ chan_buf (send cl') = chan_buf (send cl) ++ [msg]).
Proof.
  intros st'. subst st'.
  destruct msg as [|tag p].
  { split; [done|]. intros d cl Hcl. exists cl. by repeat split; try left. }
  split.
  - apply set_eq. intros d. rewrite !elem_of_dom, handleMessage_lookup by done.
    by rewrite fmap_is_Some.
  - intros d cl Hcl. rewrite handleMessage_lookup, Hcl by done. simpl.
    eexists. split; [done|].
    case_decide; [|by repeat split; try left].
    unfold try_send. case_decide; simpl; [|by repeat split; try left].
    split; [done|]. split; [done|]. by right.
Qed.

Lemma head_drop {A : Type} (l : list A) (n : nat) : head (drop n l) = l !! n.
Proof. by rewrite head_lookup, lookup_drop, Nat.add_0_r. Qed.

(** What a turn of [writePump] does to the queue it serves. *)
Lemma writePump_turn_pending ok d st :
  pending (writePump_turn ok d st) d = tail <$> pending st d.
Proof.
  unfold pending, writePump_turn.
  destruct (clients st !! d) as [cl|] eqn:Hcl; [|by rewrite Hcl].
  destruct (chan_buf (send cl)) as [|message rest] eqn:Hbuf.
  - rewrite Hcl. simpl. by rewrite Hbuf.
  - assert (clients (set_clients
              (insert d (Client (conn_open cl) (Chan (chan_cap (send cl)) rest))) st) !! d
            = Some (Client (conn_open cl) (Chan (chan_cap (send cl)) rest))) as Hnew
      by apply lookup_insert_eq.
    destruct ok; simpl; simpl in Hnew; rewrite Hnew; simpl; by rewrite Hbuf.
Qed.

(** After [n] turns the first [n] frames of the queue are gone. *)
Lemma drain_pending n d st : pending (drain n d st) d = drop n <$> pending st d.
Proof.
  unfold drain. induction n as [|n IH].
  - simpl. destruct (pending st d); simpl; [by rewrite drop_0 | done].
  - rewrite Nat.iter_succ, writePump_turn_pending, IH.
    destruct (pending st d) as [q|]; simpl; [|done].
    f_equal. clear. revert q. induction n as [|n IH]; intros q.
    + by destruct q.
    + destruct q as [|m q]; [done|]. simpl. apply IH.
Qed.

(** The queue of [d] after a frame that finds room there. *)
Lemma handleMessage_enqueues c msg st d cl :
  msg ≠ [] → d ≠ c → clients st !! d = Some cl →
  (length (chan_buf (send cl)) < chan_cap (send cl))%nat →
  clients (handleMessage c msg st).2 !! d
  = Some (Client (conn_open cl) (Chan (chan_cap (send cl)) (chan_buf (send cl) ++ [msg]))).
Proof.
  intros Hmsg Hd Hcl Hroom. rewrite handleMessage_lookup, Hcl by done. simpl.
  rewrite decide_True by done. by rewrite try_send_room.
Qed.

(** X8. Queues are first in, first out. When two non-empty frames are
    handled one after the other and the queue of a third client [d] has
    room for both, they stand at the end of that queue in the order they
    were handled; [writePump] first writes the frames that were waiting,
    then the first of the two, then the second. *)
Theorem queue_is_fifo c1 c2 d m1 m2 st cl :
  m1 ≠ [] → m2 ≠ [] → d ≠ c1 → d ≠ c2 →
  clients st !! d = Some cl →
  (length (chan_buf (send cl)) + 2 ≤ chan_cap (send cl))%nat →
  let st' := (handleMessage c2 m2 (handleMessage c1 m1 st).2).2 in
  let n := length (chan_buf (send cl)) in
  pending st' d = Some (chan_buf (send cl) ++ [m1; m2])
  ∧ (∀ k, (k < n)%nat → next_write (drain k d st') d = chan_buf (send cl) !! k)
  ∧ next_write (drain n d st') d = Some m1
  ∧ next_write (drain (S n) d st') d = Some m2
  ∧ next_write (drain (S (S n)) d st') d = None.
Proof.
  intros Hm1 Hm2 Hd1 Hd2 Hcl Hroom st' n. subst st' n.
  set (q := chan_buf (send cl)) in *.
  assert (pending (handleMessage c2 m2 (handleMessage c1 m1 st).2).2 d
          = Some (q ++ [m1; m2])) as Hq.
  { unfold pending.
    pose proof (handleMessage_enqueues c1 m1 st d cl Hm1 Hd1 Hcl) as H1.
    rewrite (handleMessage_enqueues c2 m2 _ d _ Hm2 Hd2 (H1 ltac:(unfold q in Hroom; lia))).
    - simpl. fold q. by rewrite <- app_assoc.
    - simpl. rewrite length_app. simpl. fold q. lia. }
  split; [exact Hq|].
  unfold next_write. setoid_rewrite drain_pending. rewrite Hq. simpl.
  split; [|split; [|split]].
  - intros k Hk. rewrite head_drop.
    by rewrite lookup_app_l by lia.
  - rewrite drop_app_length. done.
  - rewrite head_drop, lookup_app_r by lia.
    by replace (S (length q) - length q)%nat with 1%nat by lia.
  - rewrite head_drop. apply lookup_ge_None_2.
    rewrite length_app. simpl. lia.
Qed.

(** X8 on [three_in_r1]: clients 1 and 2 send one frame each; client 3
    is handed the frame of client 1 first. *)
Lemma queue_is_fifo_witness :
  let st' := (handleMessage 2 [x00; x02] (handleMessage 1 [x00; x01] three_in_r1).2).2 in
  pending st' 3 = Some [[x00; x01]; [x00; x02]]
  ∧ next_write st' 3 = Some [x00; x01]
  ∧ next_write (drain 1 3 st') 3 = Some [x00; x02].
Proof.
  intros st'. subst st'.
  destruct (queue_is_fifo 1 2 3 [x00; x01] [x00; x02] three_in_r1
              (Client true (Chan 256 [])))
    as (Hq & _ & Hfirst & Hsecond & _);
    [done | done | done | done | reflexivity | simpl; lia |].
  by repeat split.
Defined.

(** X9. Deregistration. Once [HandleWebSocket] has cleaned up after the
    client at [c], the registry no longer holds [c] and every other entry
    is as it was; whatever frame any client sends afterwards, nothing is
    queued for [c], and the other clients are served exactly as they are
    when [c] is still registered. *)
Theorem cleanup_deregisters c e msg st :
  let st0 := HandleWebSocket_cleanup c st in
  ¬ registered st0 c
  ∧ (∀ d, d ≠ c → untouched st st0 d)
  ∧ pending (handleMessage e msg st0).2 c = None
  ∧ (∀ d, d ≠ c →
       clients (handleMessage e msg st0).2 !! d = clients (handleMessage e msg st).2 !! d).
Proof.
  intros st0. subst st0.
  assert (∀ d, clients (HandleWebSocket_cleanup c st) !! d
               = if decide (c = d) then None else clients st !! d) as Hlookup.
  { intros d. unfold HandleWebSocket_cleanup, set_clients. simpl. apply lookup_delete. }
  split; [|split; [|split]].
  - unfold registered. rewrite Hlookup, decide_True by done. by intros [? ?].
  - intros d Hd. unfold untouched. rewrite Hlookup. by rewrite decide_False.
  - unfold pending. destruct msg as [|tag p].
    + change (handleMessage e [] (HandleWebSocket_cleanup c st)).2
        with (HandleWebSocket_cleanup c st).
      by rewrite Hlookup, decide_True.
    + rewrite handleMessage_lookup by done.
      by rewrite Hlookup, decide_True.
  - intros d Hd. destruct msg as [|tag p].
    + change (handleMessage e [] (HandleWebSocket_cleanup c st)).2
        with (HandleWebSocket_cleanup c st).
      change (handleMessage e [] st).2 with st.
      by rewrite Hlookup, decide_False.
    + rewrite !handleMessage_lookup by done.
      by rewrite Hlookup, decide_False.
Qed.

End Registry.

(** * The life of a connection *)

Section Lifecycle.

Implicit Types (st : State) (c d : nat) (msg : list byte)
  (reads : list ReadMessage) (frames : list (list byte)).

Lemma handleMessage_dom c msg st :
  dom (clients (handleMessage c msg st).2) = dom (clients st).
Proof.
  destruct msg as [|tag p]; [done|].
  apply set_eq. intros d. rewrite !elem_of_dom, handleMessage_lookup by done.
  by rewrite fmap_is_Some.
Qed.

Lemma conn_Close_dom c st : dom (clients (conn_Close c st)) = dom (clients st).
Proof. unfold conn_Close, set_clients. simpl. apply dom_alter_L. Qed.

(** [readPump] never registers or removes a client. *)
Lemma readPump_dom c reads st :
  dom (clients (readPump c reads st).2) = dom (clients st).
Proof.
  revert st. induction reads as [|r reads IH]; intros st; [done|].
  destruct r as [message| |]; simpl.
  - pose proof (handleMessage_nil c message st) as Hnil.
    pose proof (handleMessage_dom c message st) as Hdom.
    destruct (handleMessage c message st) as [err st']. simpl in Hnil, Hdom. subst err.
    by rewrite IH.
  - apply (conn_Close_dom c (logf LogReadEOF st)).
  - apply (conn_Close_dom c (logf LogReadError st)).
Qed.

(** While [readPump] is reading, its own client is as it was. *)
Lemma readPump_reading_untouched c reads st :
  (readPump c reads st).1 = Reading → untouched st (readPump c reads st).2 c.
Proof.
  revert st. induction reads as [|r reads IH]; intros st; [done|].
  destruct r as [message| |]; simpl; [|done..].
  pose proof (handleMessage_nil c message st) as Hnil.
  pose proof (handleMessage_sender c message st) as Hsender.
  destruct (handleMessage c message st) as [err st']. simpl in Hnil, Hsender. subst err.
  intros Hreading. unfold untouched in *. by rewrite IH.
Qed.

(** The frames of one sender, handled in order. *)
Lemma handle_all_sender c frames st :
  untouched st (handle_all ((λ m, (c, m)) <$> frames) st) c.
Proof.
  revert st. induction frames as [|m frames IH]; intros st; [done|].
  rewrite fmap_cons, handle_all_cons. unfold untouched in *.
  rewrite IH. apply handleMessage_sender.
Qed.

(** X10. [readPump] stops at the first read that fails. The frames read
    before it are handled in order, the failure is logged (end of stream
    or error), the connection of the client is closed, and nothing that
    the connection would have delivered afterwards is looked at. *)
Theorem readPump_stops_at_first_failure c frames r rest st :
  read_failed r = true →
  let st' := handle_all ((λ m, (c, m)) <$> frames) st in
  readPump c ((RecvOk <$> frames) ++ r :: rest) st
  = (Returned, conn_Close c (logf (read_failure_line r) st'))
  ∧ (conn_open <$> clients (readPump c ((RecvOk <$> frames) ++ r :: rest) st).2 !! c)
    = ((λ _, false) <$> clients st !! c).
Proof.
  intros Hr st'. subst st'.
  assert (readPump c ((RecvOk <$> frames) ++ r :: rest) st
          = (Returned, conn_Close c (logf (read_failure_line r)
                                       (handle_all ((λ m, (c, m)) <$> frames) st)))) as Heq.
  { revert st. induction frames as [|m frames IH]; intros st.
    - by destruct r.
    - rewrite !fmap_cons, handle_all_cons. simpl.
      pose proof (handleMessage_nil c m st) as Hnil.
      destruct (handleMessage c m st) as [err st1]. simpl in Hnil. subst err.
      apply IH. }
  split; [exact Heq|].
  rewrite Heq. unfold conn_Close, set_clients. simpl.
  rewrite lookup_alter, decide_True by done.
  pose proof (handle_all_sender c frames st) as Hsame. unfold untouched in Hsame.
  rewrite Hsame. by destruct (clients st !! c).
Qed.

(** X10 for client 1 of [three_in_r1]: an update, then end of stream,
    then a frame that is never read. *)
Lemma readPump_stops_at_first_failure_witness :
  let r := readPump 1 [RecvOk [x02; x07]; RecvEOF; RecvOk [x02; x08]] three_in_r1 in
  r.1 = Returned
  ∧ sharedState r.2 = [x07]
  ∧ (conn_open <$> clients r.2 !! 1) = Some false.
Proof.
  intros r. subst r.
  destruct (readPump_stops_at_first_failure 1 [[x02; x07]] RecvEOF [RecvOk [x02; x08]]
              three_in_r1) as [Heq Hclosed]; [done|].
  split; [exact (f_equal fst Heq)|].
  split; [vm_compute; reflexivity | exact Hclosed].
Defined.

(** A step taken while [c] is connected leaves it connected. *)
Lemma connected_step_during c st st' :
  step_during c st st' → connected st c → connected st' c.
Proof.
  intros Hstep (cl & Hcl & Hopen & Hcap).
  destruct Hstep as
    [ip room d st Hd Hfresh | d msg st | d r st Hd Hr | d st Hd | ok d st
     | n st Hn | w data st | w st].
  - exists cl. split; [|done].
    unfold HandleWebSocket_register, set_clients. simpl.
    by rewrite lookup_insert_ne.
  - destruct msg as [|tag p]; [by exists cl|].
    eexists. split; [by rewrite handleMessage_lookup, Hcl by done|].
    simpl. case_decide; [|done].
    unfold try_send. by case_decide.
  - exists cl. split; [|done].
    destruct r; [done | |]; simpl; by rewrite lookup_alter_ne.
  - exists cl. split; [|done].
    unfold HandleWebSocket_cleanup, set_clients. simpl.
    by rewrite lookup_delete_ne.
  - unfold writePump_turn.
    destruct (clients st !! d) as [cl0|] eqn:Hd; [|by exists cl].
    destruct (chan_buf (send cl0)) as [|message rest]; [by exists cl|].
    assert (connected
              (set_clients
                 (insert d (Client (conn_open cl0) (Chan (chan_cap (send cl0)) rest))) st)
              c) as Hturn.
    { unfold connected, set_clients. simpl.
      destruct (decide (d = c)) as [->|Hne].
      - rewrite lookup_insert_eq. eexists. split; [done|]. simpl.
        rewrite Hcl in Hd. by injection Hd as <-.
      - rewrite lookup_insert_ne by done. by exists cl. }
    by destruct ok.
  - by exists cl.
  - exists cl. split; [|done].
    by destruct (saveState_write_memory w data st) as (-> & _ & _).
  - exists cl. split; [|done].
    rewrite autoSave_tick_saveState.
    by destruct (saveState_memory w st) as (-> & _ & _).
Qed.

(** X11. A client is in the registry exactly from its registration to
    its cleanup, whatever else the relay does meanwhile. After
    [HandleWebSocket] has registered the client at [c] and the relay has
    taken any steps other than the failed read and the cleanup of [c]
    (other clients connecting, sending and leaving, frames of [c]
    itself, queue writes, saves, ticks), [c] is still registered with an
    open connection and a queue of capacity 256. When a read of [c] then
    fails and [HandleWebSocket] cleans up, [c] is no longer registered,
    the entry of every other client is as it was just before, and the
    registry holds exactly the other clients it held just before. *)
Theorem HandleWebSocket_lifecycle ip room c r st st1 :
  rtc (step_during c) (HandleWebSocket_register ip room c st) st1 →
  read_failed r = true →
  let st2 := HandleWebSocket_cleanup c (readPump c [r] st1).2 in
  connected st1 c
  ∧ ¬ registered st2 c
  ∧ (∀ d, d ≠ c → untouched st1 st2 d)
  ∧ dom (clients st2) = dom (clients st1) ∖ {[c]}.
Proof.
  intros Hsteps Hr st2. subst st2.
  assert (connected st1 c) as Hconn.
  { apply (rtc_ind_r (R := step_during c) (λ s, connected s c)
             (HandleWebSocket_register ip room c st)); [| |exact Hsteps].
    - eexists. split; [apply lookup_insert_eq | done].
    - intros s1 s2 _ Hstep IH. by eapply connected_step_during. }
  assert (∀ d, clients (HandleWebSocket_cleanup c (readPump c [r] st1).2) !! d
               = if decide (c = d) then None else clients st1 !! d) as Hlookup.
  { intros d. unfold HandleWebSocket_cleanup, set_clients. simpl.
    rewrite lookup_delete. case_decide; [done|].
    destruct r; [done | |]; simpl; by rewrite lookup_alter_ne. }
  split; [exact Hconn|]. split; [|split].
  - unfold registered. rewrite Hlookup, decide_True by done. by intros [? ?].
  - intros d Hd. unfold untouched. rewrite Hlookup. by rewrite decide_False.
  - apply set_eq. intros d.
    rewrite elem_of_difference, elem_of_singleton, !elem_of_dom, Hlookup.
    case_decide as Hcd.
    + subst d. split; [by intros [? ?] | by intros [_ Hne]].
    + split; [intros Hd; split; [done | by intros ->] | by intros [Hd _]].
Qed.

(** X11 for a fourth client that joins [three_in_r1]: while it is
    connected, client 1 sends it a frame and a fifth client joins; then
    its read fails. The frame waits in its queue while it is connected,
    and after the cleanup the registry holds clients 1, 2, 3 and 5. *)
Lemma HandleWebSocket_lifecycle_witness :
  let st1 :=
    HandleWebSocket_register "10.0.0.5" "r2" 5
      (handleMessage 1 [x00] (HandleWebSocket_register "10.0.0.4" "r1" 4 three_in_r1)).2 in
  let st2 := HandleWebSocket_cleanup 4 (readPump 4 [RecvErr] st1).2 in
  pending st1 4 = Some [[x00]]
  ∧ connected st1 4
  ∧ ¬ registered st2 4
  ∧ dom (clients st2) = dom (clients st1) ∖ {[4]}.
Proof.
  intros st1 st2. subst st1 st2.
  split; [vm_compute; reflexivity|].
  destruct (HandleWebSocket_lifecycle "10.0.0.4" "r1" 4 RecvErr three_in_r1
              (HandleWebSocket_register "10.0.0.5" "r2" 5
                 (handleMessage 1 [x00]
                    (HandleWebSocket_register "10.0.0.4" "r1" 4 three_in_r1)).2))
    as (Hconn & Hgone & _ & Hdom).
  - eapply rtc_l; [apply (during_message 4 1 [x00])|].
    eapply rtc_l; [|apply rtc_refl].
    apply (during_register 4 "10.0.0.5" "r2" 5); [done | vm_compute; reflexivity].
  - reflexivity.
  - by repeat split.
Defined.

End Lifecycle.

(** * The log of an update, and two inputs for the lemmas above *)

Section Preview.

Implicit Types (st : State) (p : list byte).

(** [min] is the smaller of its arguments. *)
Lemma min_spec (a b : Z) : handlers.min a b = Z.min a b.
Proof. unfold handlers.min. destruct (Z.ltb_spec a b); lia. Qed.

(** X12. For a non-empty payload within the size limit [logYDocContent]
    writes three lines: the size, a preview and the two estimates. The
    preview length [min(100, len(update))] lies between 1 and 100 and
    never exceeds the payload, so the slice [update[:previewLen]] is
    always in range, and the preview is the first [previewLen] bytes of
    the payload. *)
Theorem logYDocContent_preview p st :
  p ≠ [] → (len p ≤ maxUpdateSize)%Z →
  let previewLen := handlers.min 100 (len p) in
  (0 < previewLen ≤ 100)%Z
  ∧ (previewLen ≤ len p)%Z
  ∧ len (take 100 p) = previewLen
  ∧ log (logYDocContent p st)
    = log st ++ [LogUpdate (len p); LogPreview previewLen (take 100 p);
                 LogEstimate (len p / 300) (len p / 100)].
Proof.
  intros Hp Hmax previewLen. subst previewLen.
  assert (0 < len p)%Z as Hpos.
  { pose proof (len_nonneg p). pose proof (proj1 (len_nil_iff p)) as Hnil.
    destruct (decide (len p = 0%Z)) as [Hz|Hz]; [by apply Hnil in Hz | lia]. }
  rewrite min_spec.
  assert (take (Z.to_nat (Z.min 100 (len p))) p = take 100 p) as Htake.
  { destruct (Z.le_gt_cases 100 (len p)) as [Hbig|Hsmall].
    - by rewrite Z.min_l by done.
    - rewrite Z.min_r by lia. unfold len in *. rewrite Nat2Z.id.
      rewrite !take_ge; [done | lia | lia]. }
  split; [lia|]. split; [lia|]. split.
  - unfold len in *. rewrite length_take. lia.
  - unfold logYDocContent.
    destruct (Z.gtb_spec (len p) maxUpdateSize); [lia|].
    destruct (Z.gtb_spec (len p) 0); [|lia].
    simpl. rewrite min_spec, Htake. by rewrite <- !app_assoc.
Qed.

(** X12 for the payload [[1, 2, 3]]. *)
Lemma logYDocContent_preview_witness :
  log (logYDocContent [x01; x02; x03] (fresh_process None))
  = [LogUpdate 3; LogPreview 3 [x01; x02; x03]; LogEstimate 0 0].
Proof.
  destruct (logYDocContent_preview [x01; x02; x03] (fresh_process None))
    as (_ & _ & _ & Hlog); [done | vm_compute; discriminate |].
  exact Hlog.
Defined.

(** X13 on [saturated]. *)
Lemma queues_bounded_reachable_witness : queues_bounded saturated.
Proof. apply queues_bounded_reachable. apply saturated_reachable. Defined.

End Preview.

(** * Overflow *)

Section Overflow.

Implicit Types (st : State) (c d : nat) (msg : list byte)
  (inputs : list (nat * list byte)).

Lemma take_take_app {A : Type} (n : nat) (l k : list A) :
  take n (take n l ++ k) = take n (l ++ k).
Proof.
  destruct (Nat.le_gt_cases (length l) n) as [Hshort|Hlong].
  - by rewrite (take_ge l n).
  - rewrite (take_app_le l k) by lia.
    rewrite take_app_le by (rewrite length_take; lia).
    by rewrite take_take, Nat.min_id.
Qed.

(** A queue within its capacity after one more offer. *)
Lemma try_send_take msg cl :
  (length (chan_buf (send cl)) ≤ chan_cap (send cl))%nat →
  chan_buf (send (try_send msg cl))
  = take (chan_cap (send cl)) (chan_buf (send cl) ++ [msg])
  ∧ chan_cap (send (try_send msg cl)) = chan_cap (send cl).
Proof.
  intros Hlen. unfold try_send. case_decide as Hroom; simpl.
  - split; [|done]. rewrite take_ge; [done|]. rewrite length_app. simpl. lia.
  - split; [|done]. rewrite take_app_le by lia. by rewrite take_ge by lia.
Qed.

(** X15. When a queue overflows the oldest frames stay and the newest
    are lost. For a registered client [d] whose queue is within its
    capacity, after the relay has handled any sequence of frames and
    nothing was written to [d] meanwhile, the queue of [d] holds the
    frames it held before followed by the non-empty frames of the other
    senders, in order, cut off at the capacity. *)
Theorem queue_keeps_oldest d inputs st cl :
  clients st !! d = Some cl →
  (length (chan_buf (send cl)) ≤ chan_cap (send cl))%nat →
  pending (handle_all inputs st) d
  = Some (take (chan_cap (send cl)) (chan_buf (send cl) ++ offered d inputs)).
Proof.
  revert st cl. induction inputs as [|[c msg] inputs IH]; intros st cl Hcl Hlen.
  { unfold pending. simpl. rewrite Hcl. simpl.
    by rewrite app_nil_r, take_ge by lia. }
  rewrite handle_all_cons. unfold offered. simpl.
  destruct (decide (c = d)) as [->|Hne].
  - pose proof (handleMessage_sender d msg st) as Hsame. unfold untouched in Hsame.
    rewrite Hcl in Hsame. by apply IH.
  - destruct msg as [|tag p].
    + by apply IH.
    + assert (clients (handleMessage c (tag :: p) st).2 !! d
              = Some (try_send (tag :: p) cl)) as Hnext.
      { rewrite handleMessage_lookup, Hcl by done. simpl.
        by rewrite decide_True by done. }
      destruct (try_send_take (tag :: p) cl Hlen) as [Hbuf Hcap].
      rewrite (IH _ _ Hnext).
      * rewrite Hbuf, Hcap. simpl. f_equal.
        rewrite take_take_app. by rewrite <- app_assoc.
      * rewrite Hbuf, Hcap, length_take. lia.
Qed.

(** X15 on [saturated]: client 3 sends one more frame; the 256 frames
    that wait for client 2 stay and the new one is lost. It also gives
    the queue of client 3 of [three_in_r1] after four frames, one of them
    its own and one empty. *)
Lemma queue_keeps_oldest_witness :
  pending (handle_all [(3, [x00; x09])] saturated) 2 = Some (replicate 256 [x00])
  ∧ pending (handle_all [(1, [x00]); (3, [x01]); (2, []); (2, [x02; x07])] three_in_r1) 3
    = Some [[x00]; [x02; x07]].
Proof.
  split.
  - rewrite (queue_keeps_oldest 2 [(3, [x00; x09])] saturated
               (Client true (Chan 256 (replicate 256 [x00]))));
      [vm_compute; reflexivity | vm_compute; reflexivity | vm_compute; lia].
  - rewrite (queue_keeps_oldest 3 _ three_in_r1 (Client true (Chan 256 [])));
      [reflexivity | reflexivity | simpl; lia].
Defined.

End Overflow.

(** * Saves under way *)

Section SavesUnderWay.

Implicit Types (st : State) (c : nat) (p : list byte).



End SavesUnderWay.
